(** * Node.js stream examples: a shallow embedding of [streams.example.js]

  The script wires four small programs out of the platform's stream
  classes: [readWriteStream] and [zipGenerate] (two [pipe] chains),
  [convertInputToUpperCase] (a [Transform] whose [transform] method
  uppercases each chunk) and [logChars] (a [Duplex] whose [write] method
  logs and whose [read] method counts from 'A' to 'Z').

  Layout of the development:
  - [Utf8], [JSString]: the language primitives the methods call
    ([Buffer.prototype.toString], [Buffer.from], [String.prototype.toUpperCase],
    [String.fromCharCode]);
  - [Stream]: the effects a stream method can perform ([this.push],
    [callback], [console.log]) as a small state-and-trace monad;
  - [UppercaseTransform], [LogChars]: the methods of the script, translated
    line by line, and the drivers that call them;
  - [Pipe]: the pipe controller of the design document;
  - [Wellformed], [Bytewise], [StageOutput], [Session]: well-formed text,
    the chunks a stage emits, and sessions of calls on the duplex. *)

From Stdlib Require Import Strings.String Strings.Ascii Strings.Byte.
From Stdlib Require Import NArith ZArith List Bool Lia.
Import ListNotations.

Set Implicit Arguments.

(** A chunk travelling between streams is a [Buffer]: a sequence of bytes. *)
Definition chunk := list byte.

Definition byte_of (n : N) : byte :=
match Byte.of_N n with
| Some b => b
| None => x00
end.

(** Bytes of an ASCII literal, for writing chunks down. *)
Definition bytes (s : string) : chunk := list_byte_of_string s.

(** ** UTF-8 as [Buffer] uses it *)
Module Utf8.

Local Open Scope N_scope.

Definition codepoint := N.

(** U+FFFD, which the decoder emits for every ill-formed subsequence. *)
Definition replacement : codepoint := 0xFFFD.

(** The decoder is either between characters, or inside a multi-byte
    sequence: [cp] accumulates the payload bits, [more] continuation bytes
    are expected after the next one, and the next byte must lie in
    [lo..hi]. *)
Inductive dstate :=
| Start
| Cont (cp : codepoint) (more : nat) (lo hi : N).

Definition within (lo hi b : N) : bool := (lo <=? b) && (b <=? hi).

(** A byte seen between characters. *)
Definition lead (b : N) : list codepoint * dstate :=
  if b <=? 0x7F then ([b], Start)
  else if within 0xC2 0xDF b then ([], Cont (N.land b 0x1F) 0 0x80 0xBF)
  else if within 0xE0 0xEF b then
    ([], Cont (N.land b 0xF) 1
              (if b =? 0xE0 then 0xA0 else 0x80)
              (if b =? 0xED then 0x9F else 0xBF))
  else if within 0xF0 0xF4 b then
    ([], Cont (N.land b 0x7) 2
              (if b =? 0xF0 then 0x90 else 0x80)
              (if b =? 0xF4 then 0x8F else 0xBF))
  else ([replacement], Start).

(** One byte of input.  A byte that cannot continue the open sequence
    closes it with U+FFFD and is then read again as a leading byte. *)
Definition feed (st : dstate) (b : N) : list codepoint * dstate :=
  match st with
  | Start => lead b
  | Cont cp more lo hi =>
      if within lo hi b then
        let cp' := N.lor (N.shiftl cp 6) (N.land b 0x3F) in
        match more with
        | O => ([cp'], Start)
        | S m => ([], Cont cp' m 0x80 0xBF)
        end
      else
        let '(out, st') := lead b in (replacement :: out, st')
  end.

Fixpoint run (st : dstate) (bs : chunk) : list codepoint * dstate :=
  match bs with
  | [] => ([], st)
  | b :: rest =>
      let '(out, st') := feed st (Byte.to_N b) in
      let '(outs, st'') := run st' rest in
      (out ++ outs, st'')
  end.

(** End of input inside a sequence: one U+FFFD for the truncated tail. *)
Definition flush (st : dstate) : list codepoint :=
  match st with
  | Start => []
  | Cont _ _ _ _ => [replacement]
  end.

(** [buf.toString()] (the default encoding is 'utf8'). *)
Definition decode (bs : chunk) : list codepoint :=
  let '(out, st) := run Start bs in out ++ flush st.

(** A chunk is complete when it does not stop inside a multi-byte
    sequence. *)
Definition complete (bs : chunk) : bool :=
  match snd (run Start bs) with
  | Start => true
  | Cont _ _ _ _ => false
  end.

Definition encode3 (c : codepoint) : chunk :=
  [byte_of (N.lor 0xE0 (N.shiftr c 12));
   byte_of (N.lor 0x80 (N.land (N.shiftr c 6) 0x3F));
   byte_of (N.lor 0x80 (N.land c 0x3F))].

(** Lone surrogates cannot be encoded and are written as U+FFFD. *)
Definition encode_cp (c : codepoint) : chunk :=
  if c <? 0x80 then [byte_of c]
  else if c <? 0x800 then
    [byte_of (N.lor 0xC0 (N.shiftr c 6));
     byte_of (N.lor 0x80 (N.land c 0x3F))]
  else if within 0xD800 0xDFFF c then encode3 replacement
  else if c <? 0x10000 then encode3 c
  else if c <? 0x110000 then
    [byte_of (N.lor 0xF0 (N.shiftr c 18));
     byte_of (N.lor 0x80 (N.land (N.shiftr c 12) 0x3F));
     byte_of (N.lor 0x80 (N.land (N.shiftr c 6) 0x3F));
     byte_of (N.lor 0x80 (N.land c 0x3F))]
  else encode3 replacement.

(** [Buffer.from(str, 'utf8')]: what a stream does with a pushed string. *)
Definition encode (s : list codepoint) : chunk := flat_map encode_cp s.

End Utf8.

(** ** JavaScript strings *)
Module JSString.

Local Open Scope N_scope.

(** A string is kept as its sequence of code points.  The strings met
    here come out of [Utf8.decode] or [fromCharCode], one code point per
    character. *)
Definition jsstring := list Utf8.codepoint.

(** A string literal of the script. *)
Definition lit (s : string) : jsstring :=
  map N_of_ascii (list_ascii_of_string s).

(** The uppercase mapping of one code point.  [toUpperCase] uses the
    locale-insensitive Unicode mapping, which sends each code point to a
    sequence of code points whatever its neighbours are.  The table is
    written out for Basic Latin and the Latin-1 Supplement (a-z, the
    micro sign, sharp s, a-grave to thorn except the division sign, and
    y-diaeresis).  Code points above U+00FF are copied, which is what the
    mapping does to every caseless one, U+FFFD among them; the cased
    letters of the other blocks are not in the table.  What is proved below
    for every chunk uses only facts that hold of the full table too: the
    mapping works code point by code point, it never yields the empty
    string, a letter from a to z or a lone surrogate, and applied twice it
    gives what it gives once. *)
Definition upper_cp (c : Utf8.codepoint) : jsstring :=
  if Utf8.within 0x61 0x7A c then [c - 0x20]
  else if c =? 0xB5 then [0x39C]
  else if c =? 0xDF then [0x53; 0x53]
  else if Utf8.within 0xE0 0xFE c && negb (c =? 0xF7) then [c - 0x20]
  else if c =? 0xFF then [0x178]
  else [c].

(** [str.toUpperCase()] *)
Definition toUpperCase (s : jsstring) : jsstring := flat_map upper_cp s.

(** [String.fromCharCode(n)]: the code unit [n mod 2^16]. *)
Definition fromCharCode (n : Z) : jsstring := [Z.to_N (n mod 65536)].

(** [chunk.toString()] and the string a template literal makes of a
    [Buffer]. *)
Definition toString (c : chunk) : jsstring := Utf8.decode c.

End JSString.

(** ** What a stream method can do *)
Module Stream.

Import JSString.

(** Modelled from the spec: the taxonomy of section 7. *)
Inductive ErrorKind :=
| IOFailure
| Closed
| Timeout
| TransformFailure
| Cancelled.

(** The calls a method body makes on its stream and on the console, in
    the order it makes them. *)
Inductive effect :=
| Push (data : option jsstring)     (* this.push(data); [None] is push(null) *)
| Callback (err : option ErrorKind) (* callback(err); [None] is callback() *)
| Log (line : jsstring).            (* console.log(line) *)

(** A method body over the fields [S] of [this]: it returns a value, the
    fields as it leaves them, and the calls it made. *)
Definition method (S A : Type) : Type := S -> A * S * list effect.

Definition ret {S A} (a : A) : method S A := fun s => (a, s, []).

Definition bind {S A B} (m : method S A) (k : A -> method S B) : method S B :=
  fun s =>
    let '(a, s1, e1) := m s in
    let '(b, s2, e2) := k a s1 in
    (b, s2, e1 ++ e2).

Definition get {S} : method S S := fun s => (s, s, []).
Definition put {S} (s' : S) : method S unit := fun _ => (tt, s', []).
Definition perform {S} (e : effect) : method S unit := fun s => (tt, s, [e]).

Definition push {S} (data : option jsstring) : method S unit := perform (Push data).
Definition callback {S} (err : option ErrorKind) : method S unit := perform (Callback err).
Definition console_log {S} (line : jsstring) : method S unit := perform (Log line).

Definition effects {S A} (m : method S A) (s : S) : list effect := snd (m s).

(** Modelled from the spec: what a source answers to a poll (section 4.1)
    and a sink to a write (section 4.2). *)
Inductive PollResult :=
| Chunk (c : chunk)
| End
| Error (k : ErrorKind).

Inductive WriteResult :=
| Accepted
| Backpressured
| WError (k : ErrorKind).

End Stream.

Declare Scope method_scope.
Delimit Scope method_scope with method.
Notation "x <- m ;; k" := (Stream.bind m (fun x => k))
  (at level 61, m at next level, right associativity) : method_scope.
Notation "m ;; k" := (Stream.bind m (fun _ => k))
  (at level 61, right associativity) : method_scope.

(** ** [convertInputToUpperCase] *)
Module UppercaseTransform.

Import JSString Stream.
Local Open Scope method_scope.

(** [[
    transform(chunk, encoding, callback) {
        const uppercasedChunk = chunk.toString().toUpperCase();
        this.push(uppercasedChunk);
        callback();
    }
    ]] *)
Definition transform (chunk : chunk) (encoding : jsstring) : method unit unit :=
  let uppercasedChunk := toUpperCase (toString chunk) in
  push (Some uppercasedChunk) ;;
  callback None.

(** What can be seen of a stage from outside. *)
Inductive event :=
| Consumed (c : chunk)     (* an input chunk handed to [transform] *)
| Emitted (c : chunk)      (* a chunk made readable downstream *)
| Ended                    (* End forwarded downstream *)
| Failed (k : ErrorKind).  (* the stage errored *)

Inductive outcome := Done | Stalled | Fail (k : ErrorKind).

(** A pushed string reaches the readable side as its UTF-8 bytes; an
    empty one adds nothing to it. *)
Definition emit (s : jsstring) : list event :=
  match Utf8.encode s with
  | [] => []
  | b :: bs => [Emitted (b :: bs)]
  end.

(** Modelled from the spec: the [Transform] class that calls the method
    is the platform's.  Section 4.3: the output of one input chunk is
    emitted in order, and the stage goes on once the method has called
    back ([Done]), fails when it called back with an error, and waits
    for ever when it never called back ([Stalled]). *)
Fixpoint settle (es : list effect) : list event * outcome :=
  match es with
  | [] => ([], Stalled)
  | Push (Some s) :: rest =>
      let '(evs, o) := settle rest in (emit s ++ evs, o)
  | Push None :: rest =>
      let '(evs, o) := settle rest in (Ended :: evs, o)
  | Log _ :: rest => settle rest
  | Callback err :: rest =>
      (fst (settle rest),
       match err with None => Done | Some k => Fail k end)
  end.

(** Modelled from the spec: the platform's driver of a stage, fed the
    chunks written to it and then End.  Section 4.3: input chunks are
    taken one at a time, and End goes downstream after the output of the
    last one. *)
Fixpoint run (tr : chunk -> jsstring -> method unit unit)
             (input : list chunk) : list event :=
  match input with
  | [] => [Ended]
  | c :: rest =>
      let '(evs, o) := settle (effects (tr c (lit "buffer")) tt) in
      Consumed c :: evs ++
        match o with
        | Done => run tr rest
        | Stalled => []
        | Fail k => [Failed k]
        end
  end.

(** The bytes that arrive downstream. *)
Fixpoint output (evs : list event) : chunk :=
  match evs with
  | [] => []
  | Emitted c :: rest => c ++ output rest
  | _ :: rest => output rest
  end.

(** [process.stdin.pipe(uppercaseTransform).pipe(process.stdout)], given
    the chunks standard input delivers before it ends. *)
Definition convertInputToUpperCase (stdin : list chunk) : list event :=
  run transform stdin.

(** What one call of [transform] leaves on the stage's trace. *)
Definition handled (c : chunk) : list event :=
  Consumed c :: emit (toUpperCase (toString c)).

(** The stage as a function of a whole byte stream. *)
Definition uppercase (input : chunk) : chunk :=
  Utf8.encode (toUpperCase (toString input)).

End UppercaseTransform.

(** ** [logChars] *)
Module LogChars.

Import JSString Stream.
Local Open Scope method_scope.
Local Open Scope Z_scope.

(** The stream object: the field the script adds to it, and the two flags
    of the platform's halves. *)
Record Duplex := {
  currentCharCode : Z;   (* myDuplexStream.currentCharCode *)
  readableEnded : bool;  (* the readable side has seen push(null) *)
  writableEnded : bool   (* end() was called on the writable side *)
}.

Definition set_currentCharCode (v : Z) (d : Duplex) : Duplex :=
  {| currentCharCode := v;
     readableEnded := readableEnded d;
     writableEnded := writableEnded d |}.

Definition set_readableEnded (v : bool) (d : Duplex) : Duplex :=
  {| currentCharCode := currentCharCode d;
     readableEnded := v;
     writableEnded := writableEnded d |}.

Definition set_writableEnded (v : bool) (d : Duplex) : Duplex :=
  {| currentCharCode := currentCharCode d;
     readableEnded := readableEnded d;
     writableEnded := v |}.

(** [[
    write(chunk, encoding, callback) {
        console.log(`Writing: ${chunk}`);
        callback();
    }
    ]] *)
Definition write (chunk : chunk) (encoding : jsstring) : method Duplex unit :=
  console_log (lit "Writing: " ++ toString chunk) ;;
  callback None.

(** [[
    read(size) {
        if (this.currentCharCode > 90) {
            this.push(null);
            return;
        }
        this.push(String.fromCharCode(this.currentCharCode++));
    }
    ]]
    The argument of the second [push] is evaluated first, so the field is
    already incremented when the chunk is pushed. *)
Definition read (size : N) : method Duplex unit :=
  this <- get ;;
  if currentCharCode this >? 90 then
    push None
  else
    let c := currentCharCode this in
    put (set_currentCharCode (c + 1) this) ;;
    push (Some (fromCharCode c)).

(** [myDuplexStream.currentCharCode = 65] on the stream just built. *)
Definition fresh : Duplex :=
  {| currentCharCode := 65; readableEnded := false; writableEnded := false |}.

(** Modelled from the spec: the readable half of the platform's [Duplex]
    seen as a Source (section 4.1).  A poll calls [read] and reports what it
    pushed: a string arrives as its UTF-8 bytes (an empty one adds nothing),
    [null] is End and sets the half ended, and a chunk pushed after End is
    reported as an error. *)
Fixpoint pushed (es : list effect) (d : Duplex) : list PollResult * Duplex :=
  match es with
  | [] => ([], d)
  | Push None :: rest =>
      let '(rs, d') := pushed rest (set_readableEnded true d) in (End :: rs, d')
  | Push (Some s) :: rest =>
      if readableEnded d then ([Error IOFailure], d)
      else
        let '(rs, d') := pushed rest d in
        match Utf8.encode s with
        | [] => (rs, d')
        | b :: bs => (Chunk (b :: bs) :: rs, d')
        end
  | _ :: rest => pushed rest d
  end.

Definition poll (size : N) (d : Duplex) : list PollResult * Duplex :=
  let '(_, d', es) := read size d in pushed es d'.

(** A sequence of polls, each with the size the caller asks for. *)
Fixpoint polls (sizes : list N) (d : Duplex) : list PollResult * Duplex :=
  match sizes with
  | [] => ([], d)
  | n :: rest =>
      let '(r, d') := poll n d in
      let '(rs, d'') := polls rest d' in
      (r ++ rs, d'')
  end.

(** Modelled from the spec: the writable half of the platform's [Duplex]
    seen as a Sink (section 4.2).  A write on an open half calls [write] and
    answers with what the method called back: accepted after [callback()],
    failed after [callback(err)], and not ready for more while the method
    has not called back.  A write after [end()] never reaches the method and
    fails with [Closed]. *)
Fixpoint written (es : list effect) : list jsstring * WriteResult :=
  match es with
  | [] => ([], Backpressured)
  | Log line :: rest => let '(ls, r) := written rest in (line :: ls, r)
  | Callback None :: _ => ([], Accepted)
  | Callback (Some k) :: _ => ([], WError k)
  | Push _ :: rest => written rest
  end.

Definition sink_write (c : chunk) (d : Duplex)
  : WriteResult * Duplex * list jsstring :=
  if writableEnded d then (WError Closed, d, [])
  else
    let '(_, d', es) := write c (lit "buffer") d in
    let '(console, r) := written es in
    (r, d', console).

(** Modelled from the spec: [end()] closes the inbound half only (section
    4.5, the halves terminate independently). *)
Definition sink_end (d : Duplex) : Duplex := set_writableEnded true d.

(** The listener of the script:
    [[ myDuplexStream.on('data', (chunk) => { console.log(`Received: ${chunk}`); }) ]] *)
Definition on_data (chunk : chunk) : jsstring :=
  lit "Received: " ++ toString chunk.

(** Modelled from the spec: the flowing mode the listener switches on.  The
    platform polls the readable half until it answers End (or an error) and
    hands each chunk to the listener; [fuel] bounds the number of polls. *)
Fixpoint deliver (rs : list PollResult) : list jsstring * bool :=
  match rs with
  | [] => ([], false)
  | Chunk c :: rest => let '(ls, e) := deliver rest in (on_data c :: ls, e)
  | End :: _ => ([], true)
  | Error _ :: _ => ([], true)
  end.

Fixpoint flow (fuel : nat) (d : Duplex) : list jsstring * Duplex * bool :=
  match fuel with
  | O => ([], d, false)
  | S fuel' =>
      let '(rs, d') := poll 16384 d in
      let '(ls, stop) := deliver rs in
      if stop then (ls, d', true)
      else let '(ls', d'', fin) := flow fuel' d' in (ls ++ ls', d'', fin)
  end.

(** The chunks among the answers of the readable half. *)
Definition chunks_of (rs : list PollResult) : list chunk :=
  flat_map (fun r => match r with Chunk c => [c] | _ => [] end) rs.

(** [logChars()]: the console after the script has run.  The listener is
    installed first but the flow starts on a later tick, so the write and
    [end()] come before the first poll. *)
Definition logChars (fuel : nat) : list jsstring * Duplex * bool :=
  let d0 := fresh in
  let '(_, d1, console1) := sink_write (bytes "Hello") d0 in
  let d2 := sink_end d1 in
  let '(console2, d3, fin) := flow fuel d2 in
  (console1 ++ console2, d3, fin).

(** The chunks [read] pushes from character code [c] on, [k] of them. *)
Fixpoint letters (c : Z) (k : nat) : list chunk :=
  match k with
  | O => []
  | S k' => Utf8.encode (fromCharCode c) :: letters (c + 1) k'
  end.

(** What a holder of the stream can do with it, in any order. *)
Inductive call :=
| Write (c : chunk)   (* myDuplexStream.write(c) *)
| Finish              (* myDuplexStream.end() *)
| Poll (size : N).    (* a poll of the readable half *)

Definition apply_call (d : Duplex) (c : call) : Duplex :=
  match c with
  | Write c => snd (fst (sink_write c d))
  | Finish => sink_end d
  | Poll size => snd (poll size d)
  end.

Definition apply_calls (d : Duplex) (cs : list call) : Duplex :=
  fold_left apply_call cs d.

End LogChars.

(** ** The pipe of [readWriteStream] and [zipGenerate] *)
Module Pipe.

Import Stream.
Local Open Scope N_scope.

(** [readableStream.pipe(writableStream)] is one call into the platform.
    The script holds none of the controller behind that call, so every
    definition of this module is modelled from the design document: the
    contracts of its sections 4.1 and 4.2, the data of section 3 and the
    control loop of section 4.4. *)

(** Modelled from the spec: the size of a chunk, in bytes, and of a run of
    chunks. *)
Definition size (c : chunk) : N := N.of_nat (length c).

Fixpoint total (cs : list chunk) : N :=
  match cs with
  | [] => 0
  | c :: rest => size c + total rest
  end.

(** Modelled from the spec: a Source (section 4.1) that hands out the chunks
    it holds and then its terminal value, End or an error, for ever. *)
Record Source := {
  pending : list chunk;
  terminal : option ErrorKind
}.

(** Modelled from the spec: [poll()] of section 4.1, with its idempotent
    tail. *)
Definition poll (s : Source) : PollResult * Source :=
  match pending s with
  | c :: rest => (Chunk c, {| pending := rest; terminal := terminal s |})
  | [] => (match terminal s with None => End | Some k => Error k end, s)
  end.

(** Modelled from the spec: a Sink (section 4.2).  [answer] is what the
    consumer behind it says to this write; a chunk is received when the
    write is accepted, and a closed sink refuses every write. *)
Record Sink := {
  received : list chunk;
  closed : bool
}.

(** Modelled from the spec: [write(Chunk)] of section 4.2.  A backpressured
    write leaves the chunk with the caller, who writes it again after the
    drain. *)
Definition write (answer : WriteResult) (c : chunk) (k : Sink) : WriteResult * Sink :=
  if closed k then (WError Closed, k)
  else match answer with
       | Accepted => (Accepted, {| received := received k ++ [c]; closed := false |})
       | Backpressured => (Backpressured, k)
       | WError e => (WError e, k)
       end.

(** Modelled from the spec: [close()] of section 4.2. *)
Definition close (k : Sink) : Sink := {| received := received k; closed := true |}.

(** Modelled from the spec: the states of section 4.4. *)
Inductive Status :=
| Idle
| Running
| Completed
| Errored (k : ErrorKind).

(** Modelled from the spec: the Pipe (sections 3 and 4.4).  Its buffer holds
    the chunks polled and not yet acknowledged by downstream: [held] is the
    chunk a backpressured write left behind, [inflight] the accepted ones,
    oldest first; [buffered] counts their bytes. *)
Record Pipe := {
  status : Status;
  upstream : Source;
  downstream : Sink;
  held : option chunk;
  inflight : list chunk;
  buffered : N;
  suspended : bool;
  high : N;
  low : N
}.

(** Modelled from the spec: a pipe just connected, idle and empty, with
    the watermarks it is configured with. *)
Definition connect (hi lo : N) (src : Source) (snk : Sink) : Pipe :=
  {| status := Idle; upstream := src; downstream := snk;
     held := None; inflight := []; buffered := 0; suspended := false;
     high := hi; low := lo |}.

(** Modelled from the spec: what happens around the control loop. *)
Inductive event :=
| Begin                         (* the owner starts the pipe *)
| Tick (answer : WriteResult)   (* one turn of the loop; the sink's answer if it writes *)
| Ack                           (* downstream has consumed its oldest chunk *)
| Drained (level : N).          (* downstream reports how far it has drained *)

(** Modelled from the spec: the write of step 2, for a chunk already
    counted in [buffered].  Accepted, the chunk waits for its
    acknowledgement; backpressured, it is held and polling is suspended; on
    an error the pipe is [Errored]. *)
Definition deliver (answer : WriteResult) (c : chunk) (src : Source) (p : Pipe) : Pipe :=
  let '(w, snk) := write answer c (downstream p) in
  match w with
  | Accepted =>
      {| status := Running; upstream := src; downstream := snk;
         held := None; inflight := inflight p ++ [c]; buffered := buffered p;
         suspended := false; high := high p; low := low p |}
  | Backpressured =>
      {| status := Running; upstream := src; downstream := snk;
         held := Some c; inflight := inflight p; buffered := buffered p;
         suspended := true; high := high p; low := low p |}
  | WError k =>
      {| status := Errored k; upstream := src; downstream := snk;
         held := Some c; inflight := inflight p; buffered := buffered p;
         suspended := suspended p; high := high p; low := low p |}
  end.

(** Modelled from the spec: step 2, the count goes up by the chunk polled. *)
Definition count (c : chunk) (p : Pipe) : Pipe :=
  {| status := status p; upstream := upstream p; downstream := downstream p;
     held := held p; inflight := inflight p; buffered := buffered p + size c;
     suspended := suspended p; high := high p; low := low p |}.

(** Modelled from the spec: steps 3 and 4, downstream is closed and the pipe
    takes its terminal state. *)
Definition finish (st : Status) (p : Pipe) : Pipe :=
  {| status := st; upstream := upstream p; downstream := close (downstream p);
     held := held p; inflight := inflight p; buffered := buffered p;
     suspended := suspended p; high := high p; low := low p |}.

(** Modelled from the spec: one turn of the loop of a running pipe (steps 1
    to 4).  Nothing while suspended; the held chunk again after a drain;
    otherwise, below the high watermark, a poll.  End completes the pipe
    once every accepted chunk is acknowledged. *)
Definition tick (answer : WriteResult) (p : Pipe) : Pipe :=
  if suspended p then p
  else match held p with
       | Some c => deliver answer c (upstream p) p
       | None =>
           if buffered p <? high p then
             let '(r, src) := poll (upstream p) in
             match r with
             | Chunk c => deliver answer c src (count c p)
             | End =>
                 match inflight p with
                 | [] => finish Completed p
                 | _ :: _ => p
                 end
             | Error k => finish (Errored k) p
             end
           else p
       end.

(** Modelled from the spec: step 2, the count goes down by the chunk
    downstream has consumed. *)
Definition ack (p : Pipe) : Pipe :=
  match inflight p with
  | [] => p
  | c :: rest =>
      {| status := status p; upstream := upstream p; downstream := downstream p;
         held := held p; inflight := rest; buffered := buffered p - size c;
         suspended := suspended p; high := high p; low := low p |}
  end.

(** Modelled from the spec: step 2, a suspended pipe resumes when
    downstream reports a level below the low watermark. *)
Definition drained (level : N) (p : Pipe) : Pipe :=
  if suspended p && (level <? low p) then
    {| status := status p; upstream := upstream p; downstream := downstream p;
       held := held p; inflight := inflight p; buffered := buffered p;
       suspended := false; high := high p; low := low p |}
  else p.

(** Modelled from the spec: Idle to Running. *)
Definition start (p : Pipe) : Pipe :=
  {| status := Running; upstream := upstream p; downstream := downstream p;
     held := held p; inflight := inflight p; buffered := buffered p;
     suspended := suspended p; high := high p; low := low p |}.

(** Modelled from the spec: the state machine of section 4.4, Idle to
    Running to Completed or Errored; nothing leaves the last two. *)
Definition step (p : Pipe) (e : event) : Pipe :=
  match status p, e with
  | Idle, Begin => start p
  | Running, Tick answer => tick answer p
  | Running, Ack => ack p
  | Running, Drained level => drained level p
  | _, _ => p
  end.

Definition run (p : Pipe) (es : list event) : Pipe := fold_left step es p.

(** The buffer, oldest chunk first: the accepted chunks not yet
    acknowledged, then the held one. *)
Definition held_chunks (p : Pipe) : list chunk :=
  match held p with
  | Some c => [c]
  | None => []
  end.

Definition buffer (p : Pipe) : list chunk := inflight p ++ held_chunks p.

(** The size of the newest chunk in the buffer: the one in flight last. *)
Definition newest (p : Pipe) : N := size (last (buffer p) []).

(** The count is the size of the buffer, and all of the buffer but its
    newest chunk fits under the high watermark. *)
Definition bounded (p : Pipe) : Prop :=
  buffered p = total (buffer p)
  /\ (buffer p = [] \/ total (removelast (buffer p)) < high p).

(** Where the chunks of the source are: received by the sink, held by the
    pipe, or still to be polled. *)
Definition accounted (p : Pipe) : list chunk :=
  received (downstream p) ++ held_chunks p ++ pending (upstream p).

(** Nothing is lost and nothing is made up: the chunks accounted for are
    those of the source, in its order, the source ends with End, and a
    completed pipe has handed all of them over. *)
Definition intact (chunks : list chunk) (p : Pipe) : Prop :=
  accounted p = chunks
  /\ terminal (upstream p) = None
  /\ (status p = Completed -> held p = None /\ pending (upstream p) = []).

(** A source that produces [chunks] and then End, and a sink that has
    received nothing yet. *)
Definition producing (chunks : list chunk) : Source :=
  {| pending := chunks; terminal := None |}.

Definition empty_sink : Sink := {| received := []; closed := false |}.

(** Modelled from the spec: [readableStream.pipe(writableStream)] of
    [readWriteStream], on a file read as [chunks], with a consumer that
    accepts every write and acknowledges it at once. *)
Fixpoint copy_schedule (n : nat) : list event :=
  match n with
  | O => [Tick Accepted]
  | S m => Tick Accepted :: Ack :: copy_schedule m
  end.

Definition readWriteStream (hi lo : N) (chunks : list chunk) : Pipe :=
  run (connect hi lo (producing chunks) empty_sink)
      (Begin :: copy_schedule (length chunks)).

End Pipe.

(** ** Well-formed text *)
Module Wellformed.

Local Open Scope N_scope.

(** A Unicode scalar value: a code point that is not a surrogate.  These
    are the code points a string holds when it has no lone surrogate. *)
Definition scalar (c : Utf8.codepoint) : bool :=
  (c <? 0xD800) || ((0xDFFF <? c) && (c <? 0x110000)).

(** [P] holds of the [fuel] numbers from [start] on. *)
Fixpoint all_from (fuel : nat) (start : N) (P : N -> bool) : bool :=
  match fuel with
  | O => true
  | S fuel' => if P start then all_from fuel' (N.succ start) P else false
  end.

(** The decoder states met while decoding: the bits gathered so far fix
    the bounds of the next byte, and every way of completing the sequence
    ends on a scalar value. *)
Definition good (st : Utf8.dstate) : bool :=
  match st with
  | Utf8.Start => true
  | Utf8.Cont cp more lo hi =>
      match more with
      | 0%nat =>
          (lo =? 0x80) && (hi =? 0xBF)
          && (2 <=? cp) && (cp <? 0x4400) && negb (Utf8.within 0x360 0x37F cp)
      | 1%nat =>
          (lo =? (if cp =? 0 then 0xA0 else 0x80))
          && (hi =? (if cp =? 0xD then 0x9F else 0xBF))
          && (cp <? 0x110)
      | 2%nat =>
          (lo =? (if cp =? 0 then 0x90 else 0x80))
          && (hi =? (if cp =? 4 then 0x8F else 0xBF))
          && (cp <? 5)
      | _ => false
      end
  end.

(** The bytes [Buffer.from] writes for a scalar value decode back to it
    and leave the decoder between characters. *)
Definition round_trips (c : Utf8.codepoint) : bool :=
  negb (scalar c)
  || match Utf8.run Utf8.Start (Utf8.encode_cp c) with
     | ([c'], Utf8.Start) => c' =? c
     | _ => false
     end.

(** A code point is written either as the one byte of its own value or
    with bytes from 0x80 up. *)
Definition high_bytes (c : Utf8.codepoint) : bool :=
  match Utf8.encode_cp c with
  | [b] => (Byte.to_N b =? c) || (0x80 <=? Byte.to_N b)
  | bs => forallb (fun b => 0x80 <=? Byte.to_N b) bs
  end.

End Wellformed.

(** ** Bytes as ASCII text *)
Module Bytewise.

Local Open Scope N_scope.

Definition is_ascii (b : byte) : bool := Byte.to_N b <? 0x80.

(** The bytes 'a' to 'z'. *)
Definition is_lowercase (b : byte) : bool := Utf8.within 0x61 0x7A (Byte.to_N b).

(** 'a' to 'z' become 'A' to 'Z'; every other byte stays. *)
Definition ascii_upper (b : byte) : byte :=
  if is_lowercase b then byte_of (Byte.to_N b - 0x20) else b.



End Bytewise.

(** ** The chunks a stage hands downstream *)
Module StageOutput.

Import UppercaseTransform.


End StageOutput.

(** ** Sessions on the duplex *)
Module Session.

Import JSString Stream LogChars.

(** What a holder of the stream gets to see of a call. *)
Inductive observation :=
| Logged (line : jsstring)     (* a line on the console *)
| Answered (r : PollResult)    (* an answer of the readable half *)
| Refused (k : ErrorKind).     (* a write that failed *)

Definition observe_call (d : Duplex) (c : call) : list observation * Duplex :=
  match c with
  | Write ch =>
      let '(r, d', lines) := sink_write ch d in
      (map Logged lines
       ++ match r with WError k => [Refused k] | _ => [] end, d')
  | Finish => ([], sink_end d)
  | Poll size => let '(rs, d') := poll size d in (map Answered rs, d')
  end.

Fixpoint observe_calls (d : Duplex) (cs : list call) : list observation * Duplex :=
  match cs with
  | [] => ([], d)
  | c :: rest =>
      let '(os, d') := observe_call d c in
      let '(os', d'') := observe_calls d' rest in
      (os ++ os', d'')
  end.

Definition answers (os : list observation) : list PollResult :=
  flat_map (fun o => match o with Answered r => [r] | _ => [] end) os.

Definition console (os : list observation) : list jsstring :=
  flat_map (fun o => match o with Logged l => [l] | _ => [] end) os.

(** The sizes asked for by the polls of a session, and the chunks written
    before its first [end()]. *)
Definition sizes_polled (cs : list call) : list N :=
  flat_map (fun c => match c with Poll n => [n] | _ => [] end) cs.

Fixpoint writes_until_end (cs : list call) : list chunk :=
  match cs with
  | [] => []
  | Write c :: rest => c :: writes_until_end rest
  | Finish :: _ => []
  | Poll _ :: rest => writes_until_end rest
  end.

(** The character a code unit comes out as after its way through a
    [Buffer]: itself, or U+FFFD for a lone surrogate. *)
Definition shown (c : Z) : jsstring :=
  let u := Z.to_N (c mod 65536) in
  if Wellformed.scalar u then [u] else [Utf8.replacement].

(** Two streams with the same readable half: the fields [read] works on. *)
Definition same_readable (d d' : Duplex) : Prop :=
  currentCharCode d = currentCharCode d' /\ readableEnded d = readableEnded d'.

(** The character code is at most 91, and is 91 once the half has ended. *)
Definition in_range (d : Duplex) : Prop :=
  (currentCharCode d <= 91)%Z
  /\ (readableEnded d = true -> currentCharCode d = 91%Z).

End Session.

(** * Properties *)

(** Case analysis on every test of the goal. *)
Ltac case_ifs :=
  repeat match goal with
         | |- context [if ?c then _ else _] => destruct c
         end.

(** Boolean tests of the hypotheses and the goal, as propositions. *)
Ltac to_prop :=
  repeat (progress (rewrite ?andb_true_iff, ?orb_true_iff, ?negb_true_iff,
            ?andb_false_iff, ?orb_false_iff, ?N.eqb_eq, ?N.eqb_neq,
            ?N.ltb_lt, ?N.ltb_ge, ?N.leb_le, ?N.leb_gt in * )).


(** ** The models at work *)
Section Examples.

Import JSString Stream.

(** Well-formed sequences of one to four bytes, and what ill-formed input
    becomes. *)
Example decode_well_formed :
  Utf8.decode [x41; xc3; xa9; xe2; x82; xac; xf0; x9f; x98; x80]
  = [0x41; 0xE9; 0x20AC; 0x1F600]%N.
Proof. reflexivity. Qed.

Example decode_truncated : Utf8.decode [xe2; x82] = [0xFFFD]%N.
Proof. reflexivity. Qed.

Example decode_stray_continuations : Utf8.decode [x82; xac] = [0xFFFD; 0xFFFD]%N.
Proof. reflexivity. Qed.

Example decode_broken_then_ascii : Utf8.decode [xe2; x41] = [0xFFFD; 0x41]%N.
Proof. reflexivity. Qed.

Example encode_decode_sample :
  Utf8.encode (Utf8.decode [x41; xc3; xa9; xe2; x82; xac; xf0; x9f; x98; x80])
  = [x41; xc3; xa9; xe2; x82; xac; xf0; x9f; x98; x80].
Proof. reflexivity. Qed.

Example toUpperCase_sample :
  toUpperCase (lit "Hello, world 42") = lit "HELLO, WORLD 42".
Proof. reflexivity. Qed.

Example toUpperCase_sharp_s : toUpperCase [0xDF]%N = lit "SS".
Proof. reflexivity. Qed.

(** The console of [logChars]. *)
Example logChars_console :
  fst (fst (LogChars.logChars 27))
  = lit "Writing: Hello"
    :: map (fun b => lit "Received: " ++ [Byte.to_N b])
           (bytes "ABCDEFGHIJKLMNOPQRSTUVWXYZ").
Proof. reflexivity. Qed.

(** The backpressure scenario of the design: the sink refuses "x", drains,
    and the pipe delivers "x" and completes. *)
Example pipe_backpressure_scenario :
  let p := Pipe.run (Pipe.connect 16384 1 (Pipe.producing [bytes "x"]) Pipe.empty_sink)
             [Pipe.Begin; Pipe.Tick Backpressured; Pipe.Tick Accepted;
              Pipe.Drained 0; Pipe.Tick Accepted; Pipe.Ack; Pipe.Tick Accepted] in
  Pipe.status p = Pipe.Completed
  /\ Pipe.received (Pipe.downstream p) = [bytes "x"]
  /\ Pipe.closed (Pipe.downstream p) = true.
Proof. repeat split. Qed.

(** The failure scenario of the design: one chunk, then the source fails. *)
Example pipe_source_failure_scenario :
  let p := Pipe.run (Pipe.connect 16384 1
                       {| Pipe.pending := [bytes "a"]; Pipe.terminal := Some IOFailure |}
                       Pipe.empty_sink)
             [Pipe.Begin; Pipe.Tick Accepted; Pipe.Ack; Pipe.Tick Accepted] in
  Pipe.status p = Pipe.Errored IOFailure
  /\ Pipe.received (Pipe.downstream p) = [bytes "a"]
  /\ Pipe.closed (Pipe.downstream p) = true.
Proof. repeat split. Qed.

End Examples.

(** ** UTF-8 decoding and chunk boundaries *)
Section Utf8Facts.

Import Utf8.

Lemma run_app (a b : chunk) : forall st,
  run st (a ++ b) =
  (fst (run st a) ++ fst (run (snd (run st a)) b), snd (run (snd (run st a)) b)).
Proof.
  induction a as [|x a IH]; intros st; simpl.
  - now destruct (run st b).
  - destruct (feed st (Byte.to_N x)) as [out st'].
    rewrite IH.
    destruct (run st' a) as [o1 s1]; simpl.
    destruct (run s1 b) as [o2 s2]; simpl.
    now rewrite app_assoc.
Qed.





Lemma encode_cp_nonempty c : encode_cp c <> [].
Proof.
  unfold encode_cp, encode3.
  case_ifs; discriminate.
Qed.

Lemma encode_app (s t : list codepoint) : encode (s ++ t) = encode s ++ encode t.
Proof. apply flat_map_app. Qed.

Lemma encode_nonempty (s : list codepoint) : s <> [] -> encode s <> [].
Proof.
  destruct s as [|c s]; [congruence|]. intros _. simpl.
  pose proof (encode_cp_nonempty c). destruct (encode_cp c); [congruence | discriminate].
Qed.

End Utf8Facts.

Section JSStringFacts.

Import JSString.




End JSStringFacts.

(** ** The uppercase stage *)
Section UppercaseFacts.

Import JSString Stream UppercaseTransform.

Lemma transform_effects (c : chunk) (encoding : jsstring) :
  effects (transform c encoding) tt =
  [Push (Some (toUpperCase (toString c))); Callback None].
Proof. reflexivity. Qed.

Lemma settle_transform (c : chunk) (encoding : jsstring) :
  settle (effects (transform c encoding) tt) =
  (emit (toUpperCase (toString c)), Done).
Proof.
  rewrite transform_effects. simpl. now rewrite app_nil_r.
Qed.

Lemma run_transform_cons (c : chunk) (rest : list chunk) :
  run transform (c :: rest) = handled c ++ run transform rest.
Proof.
  unfold handled. cbn [run]. now rewrite settle_transform.
Qed.

Lemma run_transform_app (pre post : list chunk) :
  run transform (pre ++ post) = flat_map handled pre ++ run transform post.
Proof.
  induction pre as [|c pre IH]; [reflexivity|].
  rewrite <- app_comm_cons, run_transform_cons, IH.
  cbn [flat_map]. now rewrite app_assoc.
Qed.

Lemma output_app (a b : list event) : output (a ++ b) = output a ++ output b.
Proof.
  induction a as [|e a IH]; [reflexivity|].
  destruct e; simpl; rewrite IH; [reflexivity | apply app_assoc | reflexivity | reflexivity].
Qed.

Lemma output_emit (s : jsstring) : output (emit s) = Utf8.encode s.
Proof.
  unfold emit. destruct (Utf8.encode s); simpl; [reflexivity|].
  now rewrite app_nil_r.
Qed.

Lemma output_handled (c : chunk) : output (handled c) = uppercase c.
Proof. unfold handled. cbn [output]. apply output_emit. Qed.

Lemma output_run (input : list chunk) :
  output (run transform input) = flat_map uppercase input.
Proof.
  induction input as [|c input IH]; [reflexivity|].
  rewrite run_transform_cons, output_app, output_handled, IH. reflexivity.
Qed.






(** C2.  The stage handles its input one chunk at a time: whatever came
    before a chunk [c] and whatever comes after, the trace is the trace of
    the earlier chunks, then [c] consumed and its uppercased text emitted,
    then the later chunks, and End last.  For the single chunk "hello" the
    trace is: consumed, "HELLO" emitted, End. *)
Theorem uppercase_stage_ordering (pre post : list chunk) (c : chunk) :
  convertInputToUpperCase (pre ++ c :: post) =
    flat_map handled pre
    ++ (Consumed c :: emit (toUpperCase (toString c)))
    ++ flat_map handled post ++ [Ended]
  /\ output (handled c) = Utf8.encode (toUpperCase (toString c))
  /\ convertInputToUpperCase [bytes "hello"] =
       [Consumed (bytes "hello"); Emitted (bytes "HELLO"); Ended].
Proof.
  split; [|split].
  - unfold convertInputToUpperCase.
    rewrite run_transform_app, run_transform_cons.
    replace post with (post ++ []) at 1 by apply app_nil_r.
    now rewrite run_transform_app.
  - apply output_handled.
  - reflexivity.
Qed.




(** C9.  Two calls of [transform] on the same chunk with different
    encoding arguments do the same thing: same pushes, same callback, and
    the same chunk emitted downstream. *)
Theorem transform_ignores_encoding (c : chunk) (e1 e2 : jsstring) (this : unit) :
  transform c e1 this = transform c e2 this
  /\ settle (effects (transform c e1) this) = settle (effects (transform c e2) this).
Proof. split; reflexivity. Qed.


End UppercaseFacts.

(** ** The duplex of [logChars] *)
Section LogCharsFacts.

Import JSString Stream LogChars.
Local Open Scope Z_scope.

Lemma poll_end (size : N) (d : Duplex) :
  currentCharCode d > 90 -> poll size d = ([End], set_readableEnded true d).
Proof.
  intros H. unfold poll, read, bind, get; cbn -[Utf8.encode fromCharCode Z.add Z.gtb].
  destruct (Z.gtb_spec (currentCharCode d) 90); [reflexivity | lia].
Qed.

Lemma encode_fromCharCode (c : Z) :
  exists b bs, Utf8.encode (fromCharCode c) = b :: bs.
Proof.
  assert (H : Utf8.encode (fromCharCode c) <> [])
    by (apply encode_nonempty; discriminate).
  destruct (Utf8.encode (fromCharCode c)) as [|b bs]; [congruence | eauto].
Qed.

Lemma poll_chunk (size : N) (d : Duplex) :
  currentCharCode d <= 90 -> readableEnded d = false ->
  poll size d = ([Chunk (Utf8.encode (fromCharCode (currentCharCode d)))],
                 set_currentCharCode (currentCharCode d + 1) d).
Proof.
  intros H E. unfold poll, read, bind, get; cbn -[Utf8.encode fromCharCode Z.add Z.gtb].
  destruct (Z.gtb_spec (currentCharCode d) 90); [lia|].
  cbn -[Utf8.encode fromCharCode Z.add]. rewrite E.
  now destruct (encode_fromCharCode (currentCharCode d)) as (b & bs & ->).
Qed.

Lemma poll_End_inv (size : N) (d : Duplex) :
  fst (poll size d) = [End] -> currentCharCode d > 90.
Proof.
  unfold poll, read, bind, get; cbn -[Utf8.encode fromCharCode Z.add Z.gtb].
  destruct (Z.gtb_spec (currentCharCode d) 90); [lia|].
  cbn -[Utf8.encode fromCharCode Z.add]. destruct (readableEnded d); [discriminate|].
  now destruct (encode_fromCharCode (currentCharCode d)) as (b & bs & ->).
Qed.

Lemma polls_app (s1 s2 : list N) : forall d,
  polls (s1 ++ s2) d =
  (fst (polls s1 d) ++ fst (polls s2 (snd (polls s1 d))),
   snd (polls s2 (snd (polls s1 d)))).
Proof.
  induction s1 as [|n s1 IH]; intros d; simpl.
  - now destruct (polls s2 d).
  - destruct (poll n d) as [r d']. rewrite IH.
    destruct (polls s1 d') as [rs1 d1]; simpl.
    destruct (polls s2 d1) as [rs2 d2]; simpl.
    now rewrite app_assoc.
Qed.

Lemma polls_after_end (sizes : list N) (d : Duplex) :
  currentCharCode d > 90 -> readableEnded d = true ->
  polls sizes d = (repeat End (length sizes), d).
Proof.
  intros H E. induction sizes as [|n sizes IH]; [reflexivity|].
  simpl. rewrite poll_end by assumption.
  replace (set_readableEnded true d) with d
    by (destruct d; simpl in *; now subst).
  now rewrite IH.
Qed.

Lemma polls_above_90 (sizes : list N) : forall d,
  currentCharCode d > 90 ->
  fst (polls sizes d) = repeat End (length sizes).
Proof.
  induction sizes as [|n sizes IH]; intros d H; [reflexivity|].
  simpl. rewrite poll_end by assumption.
  specialize (IH (set_readableEnded true d) H).
  destruct (polls sizes (set_readableEnded true d)); simpl in *.
  now rewrite IH.
Qed.

Lemma polls_letters (sizes : list N) : forall d,
  currentCharCode d + Z.of_nat (length sizes) <= 91 ->
  readableEnded d = false ->
  polls sizes d =
  (map Chunk (letters (currentCharCode d) (length sizes)),
   set_currentCharCode (currentCharCode d + Z.of_nat (length sizes)) d).
Proof.
  induction sizes as [|n sizes IH]; intros d H E.
  - simpl. rewrite Z.add_0_r. now destruct d.
  - cbn [polls length letters map]. rewrite poll_chunk by (simpl in H; lia || assumption).
    rewrite IH by (simpl in *; lia || assumption).
    simpl. f_equal. unfold set_currentCharCode; simpl. f_equal. lia.
Qed.

Lemma flow_letters (k : nat) : forall (d : Duplex) (extra : nat),
  currentCharCode d + Z.of_nat k = 91 ->
  readableEnded d = false ->
  flow (S k + extra) d =
  (map on_data (letters (currentCharCode d) k),
   set_readableEnded true (set_currentCharCode 91 d), true).
Proof.
  induction k as [|k IH]; intros d extra H E.
  - cbn [flow Nat.add]. rewrite poll_end by lia. simpl.
    rewrite Z.add_0_r in H. destruct d; cbn [currentCharCode] in H.
    now subst.
  - change (S (S k) + extra)%nat with (S (S k + extra)).
    cbn [flow]. rewrite poll_chunk by first [lia | assumption].
    cbn [deliver].
    rewrite IH by first [simpl; lia | assumption].
    reflexivity.
Qed.

Lemma poll_sink_end (size : N) (d : Duplex) :
  poll size (sink_end d) = (fst (poll size d), sink_end (snd (poll size d))).
Proof.
  unfold poll, read, bind, get; cbn -[Utf8.encode fromCharCode Z.add Z.gtb].
  destruct (currentCharCode d >? 90); cbn -[Utf8.encode fromCharCode Z.add]; [reflexivity|].
  destruct (readableEnded d); [reflexivity|].
  now destruct (Utf8.encode (fromCharCode (currentCharCode d))).
Qed.

Lemma polls_sink_end (sizes : list N) : forall d,
  polls sizes (sink_end d) = (fst (polls sizes d), sink_end (snd (polls sizes d))).
Proof.
  induction sizes as [|n sizes IH]; intros d; [reflexivity|].
  simpl. rewrite poll_sink_end.
  destruct (poll n d) as [r d']; simpl. rewrite IH.
  now destruct (polls sizes d').
Qed.

Lemma poll_writableEnded (size : N) (d : Duplex) :
  writableEnded (snd (poll size d)) = writableEnded d.
Proof.
  unfold poll, read, bind, get; cbn -[Utf8.encode fromCharCode Z.add Z.gtb].
  destruct (currentCharCode d >? 90); cbn -[Utf8.encode fromCharCode Z.add]; [reflexivity|].
  destruct (readableEnded d); [reflexivity|].
  now destruct (Utf8.encode (fromCharCode (currentCharCode d))).
Qed.

Lemma sink_write_closed (c : chunk) (d : Duplex) :
  writableEnded d = true -> sink_write c d = (WError Closed, d, []).
Proof. intros H. unfold sink_write. now rewrite H. Qed.

Lemma apply_call_stays_ended (d : Duplex) (c : call) :
  writableEnded d = true -> writableEnded (apply_call d c) = true.
Proof.
  intros H. destruct c as [c| |n]; simpl.
  - now rewrite sink_write_closed.
  - reflexivity.
  - now rewrite poll_writableEnded.
Qed.

Lemma apply_calls_stays_ended (cs : list call) : forall d,
  writableEnded d = true -> writableEnded (apply_calls d cs) = true.
Proof.
  unfold apply_calls.
  induction cs as [|c cs IH]; intros d H; simpl; [assumption|].
  apply IH, apply_call_stays_ended, H.
Qed.

(** C4.  [end()] on the writable half changes neither the character code
    nor the ended flag of the readable half, and the readable half answers
    every later sequence of polls as it would have without the [end()].  In
    the script, where [end()] follows the write of "Hello", the polls that
    follow still yield the 26 letters and only then End. *)
Theorem end_leaves_readable_side (d : Duplex) (sizes : list N) :
  currentCharCode (sink_end d) = currentCharCode d
  /\ readableEnded (sink_end d) = readableEnded d
  /\ polls sizes (sink_end d) = (fst (polls sizes d), sink_end (snd (polls sizes d)))
  /\ (forall k : nat,
        readableEnded d = false ->
        currentCharCode d + Z.of_nat k = 91 ->
        fst (polls (repeat 16384%N (S k)) (sink_end d))
        = map Chunk (letters (currentCharCode d) k) ++ [End])
  /\ fst (polls (repeat 16384%N 27)
               (sink_end (snd (fst (sink_write (bytes "Hello") fresh)))))
     = map Chunk (letters 65 26) ++ [End].
Proof.
  split; [reflexivity|].
  split; [reflexivity|].
  split; [apply polls_sink_end|].
  split; [|vm_compute; reflexivity].
  intros k E H. rewrite polls_sink_end. cbn [fst].
  replace (repeat 16384%N (S k)) with (repeat 16384%N k ++ [16384%N])
    by (rewrite <- repeat_cons; reflexivity).
  rewrite polls_app, polls_letters
    by first [rewrite repeat_length; lia | assumption].
  cbn [fst snd]. rewrite repeat_length. f_equal.
  apply (@polls_above_90 [16384%N]). cbn. lia.
Qed.

(** C5.  Once a poll of the readable half has answered End, the character
    code is above 90, and every later poll, whatever size it asks for,
    answers End again and leaves the stream as it is: no chunk follows. *)
Theorem read_idempotent_tail (size : N) (d : Duplex) (sizes : list N) :
  fst (poll size d) = [End] ->
  currentCharCode d > 90
  /\ polls sizes (snd (poll size d))
     = (repeat End (length sizes), snd (poll size d))
  /\ chunks_of (fst (polls sizes (snd (poll size d)))) = [].
Proof.
  intros H. apply poll_End_inv in H.
  rewrite poll_end by assumption. cbn [snd].
  rewrite polls_after_end by (simpl; assumption || reflexivity).
  repeat split; [assumption|].
  cbn [fst]. induction (length sizes); [reflexivity | assumption].
Qed.

Lemma read_idempotent_tail_witness :
  fst (poll 16384 (set_currentCharCode 91 fresh)) = [End]
  /\ polls [16384; 1; 0]%N (snd (poll 16384 (set_currentCharCode 91 fresh)))
     = ([End; End; End], snd (poll 16384 (set_currentCharCode 91 fresh))).
Proof.
  split; [reflexivity|].
  apply (@read_idempotent_tail 16384 (set_currentCharCode 91 fresh) [16384; 1; 0]%N).
  reflexivity.
Defined.

(** C6.  After [end()], whatever calls came before it and whatever calls
    follow, the writable half is closed and a write fails with [Closed]:
    the stream is left as it was and nothing is logged.  The same holds of
    the sink behind a pipe once it is closed. *)
Theorem write_after_end_is_refused (d : Duplex) (before later : list call) (c : chunk) :
  writableEnded (apply_calls d (before ++ Finish :: later)) = true
  /\ sink_write c (apply_calls d (before ++ Finish :: later))
     = (WError Closed, apply_calls d (before ++ Finish :: later), [])
  /\ (forall (k : Pipe.Sink) (answer : WriteResult),
        Pipe.write answer c (Pipe.close k) = (WError Closed, Pipe.close k)).
Proof.
  assert (E : writableEnded (apply_calls d (before ++ Finish :: later)) = true).
  { unfold apply_calls. rewrite fold_left_app. simpl.
    apply apply_calls_stays_ended. reflexivity. }
  repeat split.
  - exact E.
  - now apply sink_write_closed.
Qed.

(** C8.  Polled any number of times, with any sizes, the readable half of
    the fresh stream answers with the letters from code 65 on, at most 26 of
    them, and End from the 27th poll on.  The 26 chunks are the one-byte
    chunks "A" to "Z" in this order, and the script logs each of them once
    after the line of the write. *)
Theorem readable_side_emits_alphabet (sizes : list N) (extra : nat) :
  fst (polls sizes fresh)
  = map Chunk (letters 65 (Nat.min (length sizes) 26))
    ++ repeat End (length sizes - 26)
  /\ letters 65 26 = map (fun b => [b]) (bytes "ABCDEFGHIJKLMNOPQRSTUVWXYZ")
  /\ logChars (27 + extra)
     = (lit "Writing: Hello" :: map on_data (letters 65 26),
        {| currentCharCode := 91; readableEnded := true; writableEnded := true |},
        true).
Proof.
  split; [|split].
  - assert (F : currentCharCode fresh = 65) by reflexivity.
    assert (R : readableEnded fresh = false) by reflexivity.
    destruct (Nat.le_gt_cases (length sizes) 26) as [L|L].
    + rewrite polls_letters by first [rewrite F; lia | exact R].
      replace (length sizes - 26)%nat with 0%nat by lia.
      rewrite Nat.min_l, F by assumption. cbn [fst repeat].
      now rewrite app_nil_r.
    + rewrite <- (firstn_skipn 26 sizes) at 1.
      assert (L1 : length (firstn 26 sizes) = 26%nat)
        by (rewrite length_firstn; lia).
      assert (L2 : length (skipn 26 sizes) = (length sizes - 26)%nat)
        by apply length_skipn.
      rewrite polls_app, polls_letters by first [rewrite F, L1; lia | exact R].
      cbn [fst snd]. rewrite L1, F.
      rewrite polls_above_90 by (cbn; lia).
      rewrite Nat.min_r by lia.
      now rewrite L2.
  - reflexivity.
  - unfold logChars.
    change (sink_write (bytes "Hello") fresh)
      with (Accepted, fresh, [lit "Writing: Hello"]).
    cbv beta iota zeta.
    rewrite (@flow_letters 26 (sink_end fresh) extra) by reflexivity.
    reflexivity.
Qed.

End LogCharsFacts.

(** ** The pipe controller *)
Section PipeFacts.

Import Stream Pipe.
Local Open Scope N_scope.

Lemma total_app (a b : list chunk) : total (a ++ b) = total a + total b.
Proof.
  induction a as [|c a IH]; cbn [total app]; [reflexivity|]. rewrite IH. lia.
Qed.

Lemma total_removelast_last (l : list chunk) :
  l <> [] -> total l = total (removelast l) + size (last l []).
Proof.
  intros H.
  transitivity (total (removelast l ++ [last l []])).
  - now rewrite <- app_removelast_last.
  - rewrite total_app. cbn [total]. lia.
Qed.

(** The buffer and its count after the write of step 2. *)
Lemma deliver_buffer answer c src p :
  held p = None \/ held p = Some c ->
  buffer (deliver answer c src p) = inflight p ++ [c]
  /\ buffered (deliver answer c src p) = buffered p
  /\ high (deliver answer c src p) = high p.
Proof.
  intros _. unfold deliver, write, buffer, held_chunks.
  destruct (closed (downstream p)); [|destruct answer]; simpl;
    rewrite ?app_nil_r; auto.
Qed.

Lemma bounded_same (p p' : Pipe) :
  buffer p' = buffer p -> buffered p' = buffered p -> high p' = high p ->
  bounded p -> bounded p'.
Proof.
  unfold bounded. intros -> -> ->. auto.
Qed.

Lemma bounded_snoc (p p' : Pipe) (c : chunk) :
  held p = None -> buffered p < high p ->
  buffer p' = inflight p ++ [c] ->
  buffered p' = buffered p + size c ->
  high p' = high p ->
  bounded p -> bounded p'.
Proof.
  intros Hh Hlt E1 E2 E3 [Hb _].
  unfold buffer, held_chunks in Hb. rewrite Hh, app_nil_r in Hb.
  unfold bounded. rewrite E1, E2, E3. split.
  - rewrite total_app. cbn [total]. lia.
  - right. rewrite removelast_last. lia.
Qed.

Lemma bounded_tick (answer : WriteResult) (p : Pipe) :
  bounded p -> bounded (tick answer p).
Proof.
  intros B. unfold tick.
  destruct (suspended p); [assumption|].
  destruct (held p) as [c|] eqn:Hh.
  - destruct (@deliver_buffer answer c (upstream p) p (or_intror Hh)) as (E1 & E2 & E3).
    apply bounded_same with (p := p); [|assumption..].
    rewrite E1. unfold buffer, held_chunks. now rewrite Hh.
  - destruct (N.ltb_spec (buffered p) (high p)) as [Hlt|]; [|assumption].
    destruct (poll (upstream p)) as [r src].
    destruct r as [c| |k].
    + destruct (@deliver_buffer answer c src (count c p) (or_introl Hh))
        as (E1 & E2 & E3).
      apply bounded_snoc with (p := p) (c := c); auto.
    + destruct (inflight p); [|assumption].
      apply bounded_same with (p := p); solve [reflexivity | assumption].
    + apply bounded_same with (p := p); solve [reflexivity | assumption].
Qed.

Lemma bounded_ack (p : Pipe) : bounded p -> bounded (ack p).
Proof.
  intros B. unfold ack.
  destruct (inflight p) as [|c rest] eqn:Hi; [assumption|].
  destruct B as [Hb Hr]. unfold bounded, buffer in *.
  cbn [inflight buffered high].
  change (held_chunks _) with (held_chunks p).
  rewrite Hi in Hb, Hr.
  set (B := rest ++ held_chunks p) in *.
  change ((c :: rest) ++ held_chunks p) with (c :: B) in *.
  cbn [total] in Hb. split; [lia|].
  destruct Hr as [Hr|Hr]; [discriminate|].
  destruct B as [|b B']; [now left | right].
  change (removelast (c :: b :: B')) with (c :: removelast (b :: B')) in Hr.
  cbn [total] in Hr. lia.
Qed.

Lemma bounded_step (p : Pipe) (e : event) : bounded p -> bounded (step p e).
Proof.
  intros B. unfold step.
  destruct (status p), e; auto using bounded_tick, bounded_ack.
  unfold drained. destruct (suspended p && _)%bool; [|assumption].
  apply bounded_same with (p := p); solve [reflexivity | assumption].
Qed.

Lemma bounded_run (es : list event) : forall p, bounded p -> bounded (run p es).
Proof.
  unfold run. induction es as [|e es IH]; intros p B; simpl; [assumption|].
  apply IH, bounded_step, B.
Qed.

Lemma high_step (p : Pipe) (e : event) : high (step p e) = high p.
Proof.
  unfold step. destruct (status p), e; try reflexivity.
  - unfold tick. destruct (suspended p); [reflexivity|].
    destruct (held p) as [c|] eqn:Hh.
    + apply (@deliver_buffer answer c (upstream p) p (or_intror Hh)).
    + destruct (buffered p <? high p); [|reflexivity].
      destruct (poll (upstream p)) as [[c| |k] src]; [| |reflexivity].
      * apply (@deliver_buffer answer c src (count c p) (or_introl Hh)).
      * now destruct (inflight p).
  - unfold ack. now destruct (inflight p).
  - unfold drained. now destruct (suspended p && _)%bool.
Qed.

Lemma high_run (es : list event) : forall p, high (run p es) = high p.
Proof.
  unfold run. induction es as [|e es IH]; intros p; simpl; [reflexivity|].
  now rewrite IH, high_step.
Qed.

(** C7.  In every state a pipe reaches from its connection, whatever the
    watermarks, the endpoints and the events, the buffered count is at most
    the high watermark plus the size of the newest chunk in the buffer, and
    it is zero when the buffer is empty. *)
Theorem buffered_within_one_chunk_of_high
    (hi lo : N) (src : Source) (snk : Sink) (es : list event) :
  high (run (connect hi lo src snk) es) = hi
  /\ buffered (run (connect hi lo src snk) es)
     <= hi + newest (run (connect hi lo src snk) es)
  /\ (buffer (run (connect hi lo src snk) es) = [] ->
      buffered (run (connect hi lo src snk) es) = 0).
Proof.
  assert (B : bounded (run (connect hi lo src snk) es)).
  { apply bounded_run. split; [reflexivity | now left]. }
  pose proof (high_run es (connect hi lo src snk)) as H. cbn [connect high] in H.
  set (p := run (connect hi lo src snk) es) in *.
  destruct B as [Hb Hr]. unfold newest.
  split; [assumption|]. split.
  - destruct Hr as [Hr|Hr].
    + rewrite Hb, Hr. cbn. lia.
    + destruct (buffer p) as [|b l] eqn:E; [rewrite Hb; cbn; lia|].
      rewrite Hb, (@total_removelast_last (b :: l)) by discriminate. lia.
  - intros E. now rewrite Hb, E.
Qed.

(** Where the chunks are after the write of step 2. *)
Lemma deliver_account answer c src p :
  accounted (deliver answer c src p) = received (downstream p) ++ [c] ++ pending src
  /\ upstream (deliver answer c src p) = src
  /\ status (deliver answer c src p) <> Completed.
Proof.
  unfold deliver, write, accounted, held_chunks.
  destruct (closed (downstream p)); [|destruct answer]; simpl;
    rewrite <- ?app_assoc; repeat split; discriminate.
Qed.

Lemma source_poll_chunk (s src : Source) (c : chunk) :
  poll s = (Chunk c, src) ->
  pending s = c :: pending src /\ terminal src = terminal s.
Proof.
  unfold poll. destruct (pending s) as [|x rest].
  - destruct (terminal s); discriminate.
  - intros E. inversion E; subst. auto.
Qed.

Lemma source_poll_end (s src : Source) :
  poll s = (End, src) -> pending s = [] /\ src = s.
Proof.
  unfold poll. destruct (pending s) as [|x rest]; [|discriminate].
  intros E. inversion E. auto.
Qed.

Lemma intact_tick (chunks : list chunk) (answer : WriteResult) (p : Pipe) :
  status p = Running -> intact chunks p -> intact chunks (tick answer p).
Proof.
  intros R I. pose proof I as (A & T & C). unfold tick.
  destruct (suspended p); [assumption|].
  destruct (held p) as [c|] eqn:Hh.
  - destruct (deliver_account answer c (upstream p) p) as (E1 & E2 & E3).
    unfold intact. rewrite E1, E2. repeat split; try assumption; try contradiction.
    rewrite <- A. unfold accounted, held_chunks. now rewrite Hh.
  - destruct (buffered p <? high p); [|assumption].
    destruct (poll (upstream p)) as [r src] eqn:P.
    destruct r as [c| |k].
    + apply source_poll_chunk in P as [P1 P2].
      destruct (deliver_account answer c src (count c p)) as (E1 & E2 & E3).
      unfold intact. rewrite E1, E2. repeat split; try contradiction.
      * rewrite <- A. unfold accounted, held_chunks. now rewrite Hh, P1.
      * congruence.
    + apply source_poll_end in P as [P1 _].
      destruct (inflight p); [|assumption].
      unfold intact, finish, accounted, held_chunks in *; simpl.
      rewrite Hh in *. auto.
    + unfold intact, finish, accounted, held_chunks in *; simpl.
      rewrite Hh in *. repeat split; try assumption; discriminate.
Qed.

Lemma intact_step (chunks : list chunk) (p : Pipe) (e : event) :
  intact chunks p -> intact chunks (step p e).
Proof.
  intros I. unfold step.
  destruct (status p) eqn:S, e; try assumption.
  - destruct I as (A & T & C). repeat split; try assumption; discriminate.
  - now apply intact_tick.
  - unfold ack. destruct (inflight p); [assumption|].
    destruct I as (A & T & C). repeat split; try assumption; simpl in *; congruence.
  - unfold drained. destruct (suspended p && _)%bool; [|assumption].
    destruct I as (A & T & C). repeat split; try assumption; simpl in *; congruence.
Qed.

Lemma intact_run (chunks : list chunk) (es : list event) : forall p,
  intact chunks p -> intact chunks (run p es).
Proof.
  unfold run. induction es as [|e es IH]; intros p I; simpl; [assumption|].
  apply IH, intact_step, I.
Qed.

Lemma intact_connect (hi lo : N) (chunks : list chunk) :
  intact chunks (connect hi lo (producing chunks) empty_sink).
Proof. repeat split; discriminate. Qed.

(** The copy of [readWriteStream], one chunk at a time. *)
Lemma copy_completes (hi lo : N) (chunks : list chunk) : forall recv,
  0 < hi ->
  run {| status := Running; upstream := producing chunks;
         downstream := {| received := recv; closed := false |};
         held := None; inflight := []; buffered := 0; suspended := false;
         high := hi; low := lo |}
      (copy_schedule (length chunks))
  = {| status := Completed; upstream := producing [];
       downstream := {| received := recv ++ chunks; closed := true |};
       held := None; inflight := []; buffered := 0; suspended := false;
       high := hi; low := lo |}.
Proof.
  induction chunks as [|c chunks IH]; intros recv H.
  - destruct hi; [lia|]. cbn. now rewrite app_nil_r.
  - cbn [length copy_schedule]. unfold run. cbn [fold_left].
    assert (E : step (step
              {| status := Running; upstream := producing (c :: chunks);
                 downstream := {| received := recv; closed := false |};
                 held := None; inflight := []; buffered := 0; suspended := false;
                 high := hi; low := lo |} (Tick Accepted)) Ack
            = {| status := Running; upstream := producing chunks;
                 downstream := {| received := recv ++ [c]; closed := false |};
                 held := None; inflight := []; buffered := 0; suspended := false;
                 high := hi; low := lo |}).
    { destruct hi; [lia|]. cbn -[N.sub size]. now rewrite N.sub_diag. }
    rewrite E. fold (run
      {| status := Running; upstream := producing chunks;
         downstream := {| received := recv ++ [c]; closed := false |};
         held := None; inflight := []; buffered := 0; suspended := false;
         high := hi; low := lo |} (copy_schedule (length chunks))).
    rewrite IH by assumption. now rewrite <- app_assoc.
Qed.

(** C1.  A source that produces [chunks] and then End is piped into an
    empty sink, with a high watermark above zero.  Whatever happens around
    the loop, the sink has received a prefix of [chunks], in the order of
    the source, and once the pipe is [Completed] it has received all of
    them.  When the consumer accepts and acknowledges every write, as for
    the file copy of [readWriteStream], the pipe does complete, and the
    bytes received are the bytes produced. *)
Theorem pipe_preserves_chunks (hi lo : N) (chunks : list chunk) (es : list event) :
  0 < hi ->
  (exists rest,
     chunks = received (downstream (run (connect hi lo (producing chunks) empty_sink) es))
              ++ rest)
  /\ (status (run (connect hi lo (producing chunks) empty_sink) es) = Completed ->
      received (downstream (run (connect hi lo (producing chunks) empty_sink) es))
      = chunks)
  /\ status (readWriteStream hi lo chunks) = Completed
  /\ received (downstream (readWriteStream hi lo chunks)) = chunks
  /\ concat (received (downstream (readWriteStream hi lo chunks))) = concat chunks.
Proof.
  intros H.
  pose proof (intact_run es (intact_connect hi lo chunks)) as (A & T & C).
  set (p := run (connect hi lo (producing chunks) empty_sink) es) in *.
  assert (R : readWriteStream hi lo chunks
              = {| status := Completed; upstream := producing [];
                   downstream := {| received := chunks; closed := true |};
                   held := None; inflight := []; buffered := 0;
                   suspended := false; high := hi; low := lo |}).
  { unfold readWriteStream, run. cbn [fold_left].
    change (step (connect hi lo (producing chunks) empty_sink) Begin)
      with {| status := Running; upstream := producing chunks;
              downstream := {| received := []; closed := false |};
              held := None; inflight := []; buffered := 0; suspended := false;
              high := hi; low := lo |}.
    apply (@copy_completes hi lo chunks [] H). }
  split; [|split].
  - exists (held_chunks p ++ pending (upstream p)). symmetry. exact A.
  - intros S. destruct (C S) as [Hh Hp].
    unfold accounted, held_chunks in A. rewrite Hh, Hp in A.
    now rewrite !app_nil_r in A.
  - rewrite R. repeat split.
Qed.

Lemma pipe_preserves_chunks_witness :
  (0 < 16384)%N
  /\ status (readWriteStream 16384 1 [bytes "ab"; bytes "cd"]) = Completed
  /\ received (downstream (readWriteStream 16384 1 [bytes "ab"; bytes "cd"]))
     = [bytes "ab"; bytes "cd"].
Proof.
  assert (H : (0 < 16384)%N) by reflexivity.
  split; [exact H|].
  destruct (@pipe_preserves_chunks 16384 1 [bytes "ab"; bytes "cd"] [] H)
    as (_ & _ & S & R & _).
  split; [exact S | exact R].
Defined.

End PipeFacts.

(** ** Scalar values through the decoder and the encoder *)
Section WellformedFacts.

Import Wellformed Utf8.
Local Open Scope N_scope.

Lemma all_from_spec (P : N -> bool) (fuel : nat) : forall start,
  all_from fuel start P = true ->
  forall c, start <= c < start + N.of_nat fuel -> P c = true.
Proof.
  induction fuel as [|fuel IH]; intros start H c Hc; [lia|].
  cbn [all_from] in H. destruct (P start) eqn:E; [|discriminate].
  destruct (N.eq_dec c start) as [->|Hne]; [assumption|].
  apply (IH (N.succ start) H). lia.
Qed.

Lemma lor_shiftl_6 (a b : N) :
  N.lor (N.shiftl a 6) (N.land b 0x3F) = a * 64 + b mod 64.
Proof.
  change 0x3F with (N.ones 6). rewrite N.land_ones, N.shiftl_mul_pow2.
  change (2 ^ 6) with 64.
  assert (Z0 : N.land (a * 64) (b mod 64) = 0).
  { apply N.bits_inj_0. intros n. rewrite N.land_spec.
    destruct (N.lt_ge_cases n 6) as [L|L].
    - change 64 with (2 ^ 6). now rewrite N.mul_pow2_bits_low.
    - change 64 with (2 ^ 6). rewrite N.mod_pow2_bits_high by assumption.
      apply andb_false_r. }
  now rewrite N.add_nocarry_lxor, N.lxor_lor.
Qed.

Lemma lead_good : all_from 256 0 (fun b => good (snd (lead b)) && forallb scalar (fst (lead b))) = true.
Proof. vm_compute. reflexivity. Qed.

Lemma lead_step (b : N) :
  b < 256 -> good (snd (lead b)) = true /\ forallb scalar (fst (lead b)) = true.
Proof.
  intros H. apply andb_true_iff.
  apply (all_from_spec _ _ lead_good). cbn. lia.
Qed.

Lemma feed_good (st : dstate) (b : N) :
  b < 256 -> good st = true ->
  good (snd (feed st b)) = true /\ forallb scalar (fst (feed st b)) = true.
Proof.
  intros Hb G. destruct st as [|cp more lo hi]; [now apply lead_step|].
  cbn [feed]. destruct (within lo hi b) eqn:W.
  - rewrite lor_shiftl_6.
    pose proof (N.div_mod b 64 ltac:(discriminate)) as D.
    pose proof (N.mod_lt b 64 ltac:(discriminate)) as M.
    set (r := b mod 64) in *. set (q := b / 64) in *.
    unfold within in W.
    destruct more as [|[|[|more]]]; cbn [good] in G; [| | |discriminate];
      cbn [fst snd good forallb]; unfold scalar, within in *;
      repeat match goal with
             | H : context [if ?c =? ?k then _ else _] |- _ =>
                 destruct (N.eqb_spec c k)
             | |- context [if ?c =? ?k then _ else _] =>
                 destruct (N.eqb_spec c k)
             end;
      to_prop; lia.
  - destruct (@lead_step b Hb) as [G' S'].
    destruct (lead b) as [out st']; cbn [fst snd] in *.
    split; [assumption|]. cbn [forallb]. now rewrite S'.
Qed.

Lemma run_good (bs : chunk) : forall st,
  good st = true ->
  good (snd (run st bs)) = true /\ forallb scalar (fst (run st bs)) = true.
Proof.
  induction bs as [|b bs IH]; intros st G; [now split|].
  cbn [run].
  assert (Hb : Byte.to_N b < 256).
  { pose proof (Byte.to_N_bounded b). lia. }
  destruct (@feed_good st _ Hb G) as [G1 S1].
  destruct (feed st (Byte.to_N b)) as [out st']; cbn [fst snd] in *.
  destruct (IH st' G1) as [G2 S2].
  destruct (run st' bs) as [outs st'']; cbn [fst snd] in *.
  split; [assumption|]. rewrite forallb_app. now rewrite S1, S2.
Qed.

Lemma decode_scalar (bs : chunk) : forallb scalar (decode bs) = true.
Proof.
  unfold decode.
  destruct (@run_good bs Start eq_refl) as [G S].
  destruct (run Start bs) as [out st]; cbn [fst snd] in *.
  rewrite forallb_app, S. now destruct st.
Qed.

Lemma byte_of_to_N (b : byte) : byte_of (Byte.to_N b) = b.
Proof. unfold byte_of. now rewrite Byte.of_to_N. Qed.

Lemma encode_check :
  all_from (N.to_nat 0x110000) 0 (fun c => round_trips c && high_bytes c) = true.
Proof. vm_compute. reflexivity. Qed.

Lemma encode_checked (c : N) :
  c < 0x110000 -> round_trips c = true /\ high_bytes c = true.
Proof.
  intros H. apply andb_true_iff.
  apply (all_from_spec _ _ encode_check). rewrite N2Nat.id. lia.
Qed.

Lemma scalar_bound (c : N) : scalar c = true -> c < 0x110000.
Proof. unfold scalar. to_prop. lia. Qed.

End WellformedFacts.

(** ** What the uppercase stage writes *)
Section StageOutputFacts.

Import Wellformed Bytewise StageOutput Utf8 JSString Stream UppercaseTransform.
Local Open Scope N_scope.

Lemma run_encode_cp (c : N) :
  scalar c = true -> Utf8.run Start (encode_cp c) = ([c], Start).
Proof.
  intros S. destruct (encode_checked (scalar_bound c S)) as [R _].
  unfold round_trips in R. rewrite S in R. cbn [negb orb] in R.
  destruct (Utf8.run Start (encode_cp c)) as [[|c' [|]] [|]]; try discriminate.
  apply N.eqb_eq in R. now subst.
Qed.

Lemma run_encode (s : list N) :
  forallb scalar s = true -> Utf8.run Start (encode s) = (s, Start).
Proof.
  induction s as [|c s IH]; [reflexivity|].
  cbn [forallb encode flat_map]. intros H. apply andb_true_iff in H as [Hc Hs].
  rewrite run_app, run_encode_cp by assumption. cbn [fst snd].
  fold (encode s). now rewrite IH.
Qed.

Lemma decode_encode (s : list N) :
  forallb scalar s = true -> decode (encode s) = s.
Proof.
  intros H. unfold decode. rewrite run_encode by assumption.
  apply app_nil_r.
Qed.

Lemma complete_encode (s : list N) :
  forallb scalar s = true -> complete (encode s) = true.
Proof. intros H. unfold complete. now rewrite run_encode. Qed.

























Lemma run_ascii (c : chunk) :
  forallb is_ascii c = true -> Utf8.run Start c = (map Byte.to_N c, Start).
Proof.
  induction c as [|b c IH]; [reflexivity|].
  cbn [forallb]. intros H. apply andb_true_iff in H as [Hb Hc].
  cbn [Utf8.run feed map]. unfold lead.
  unfold is_ascii in Hb. apply N.ltb_lt in Hb.
  destruct (N.leb_spec (Byte.to_N b) 0x7F); [|lia].
  now rewrite IH.
Qed.

Lemma upper_ascii (b : byte) :
  is_ascii b = true -> Utf8.encode (upper_cp (Byte.to_N b)) = [ascii_upper b].
Proof.
  unfold is_ascii, ascii_upper, is_lowercase. intros H. apply N.ltb_lt in H.
  unfold upper_cp. destruct (within 0x61 0x7A (Byte.to_N b)) eqn:W.
  - unfold within in W. to_prop.
    cbn [Utf8.encode flat_map app]. unfold encode_cp.
    destruct (N.ltb_spec (Byte.to_N b - 0x20) 0x80); [reflexivity | lia].
  - repeat match goal with
           | |- context [if ?c then _ else _] => destruct c eqn:?
           end; try (exfalso; unfold within in *; to_prop; lia).
    cbn [Utf8.encode flat_map app]. unfold encode_cp.
    destruct (N.ltb_spec (Byte.to_N b) 0x80); [|lia].
    now rewrite byte_of_to_N.
Qed.

Lemma uppercase_ascii (c : chunk) :
  forallb is_ascii c = true -> uppercase c = map ascii_upper c.
Proof.
  intros H. unfold uppercase, toString, decode.
  rewrite run_ascii by assumption. rewrite app_nil_r.
  induction c as [|b c IH]; [reflexivity|].
  cbn [forallb] in H. apply andb_true_iff in H as [Hb Hc].
  cbn [map toUpperCase flat_map]. fold (toUpperCase (map Byte.to_N c)).
  rewrite encode_app, upper_ascii by assumption. cbn [app]. now rewrite IH.
Qed.

(** X1.  On a stream of ASCII bytes, however it is cut into chunks, the
    stage writes the input bytes with 'a' to 'z' replaced by 'A' to 'Z' and
    every other byte unchanged, so as many bytes as it read. *)
Theorem ascii_stream_is_uppercased_bytewise (input : list chunk) :
  forallb (forallb is_ascii) input = true ->
  output (convertInputToUpperCase input) = map ascii_upper (concat input)
  /\ length (output (convertInputToUpperCase input)) = length (concat input).
Proof.
  intros H. unfold convertInputToUpperCase. rewrite output_run.
  assert (E : flat_map uppercase input = map ascii_upper (concat input)).
  { induction input as [|c input IH]; [reflexivity|].
    cbn [forallb] in H. apply andb_true_iff in H as [Hc Hi].
    cbn [flat_map concat]. now rewrite map_app, uppercase_ascii, IH. }
  rewrite E. split; [reflexivity | apply length_map].
Qed.

Lemma ascii_stream_is_uppercased_bytewise_witness :
  forallb (forallb is_ascii) [bytes "Hello, "; bytes "world 42"] = true
  /\ output (convertInputToUpperCase [bytes "Hello, "; bytes "world 42"])
     = bytes "HELLO, WORLD 42".
Proof.
  assert (H : forallb (forallb is_ascii) [bytes "Hello, "; bytes "world 42"] = true)
    by reflexivity.
  split; [exact H|].
  rewrite (proj1 (@ascii_stream_is_uppercased_bytewise
                    [bytes "Hello, "; bytes "world 42"] H)).
  reflexivity.
Defined.

(** X6.  A string without lone surrogates written to a [Buffer] and read
    back with [toString] is the same string, and its bytes never stop inside
    a sequence; and no [toString] of any chunk holds a lone surrogate or a
    code point above U+10FFFF. *)
Theorem buffer_string_round_trip (s : jsstring) (c : chunk) :
  forallb scalar s = true ->
  toString (Utf8.encode s) = s
  /\ complete (Utf8.encode s) = true
  /\ forallb scalar (toString c) = true.
Proof.
  intros H. split; [now apply decode_encode|].
  split; [now apply complete_encode | apply decode_scalar].
Qed.

Lemma buffer_string_round_trip_witness :
  forallb scalar (lit "Hi " ++ [0xE9; 0x20AC; 0x1F600]) = true
  /\ toString (Utf8.encode (lit "Hi " ++ [0xE9; 0x20AC; 0x1F600]))
     = lit "Hi " ++ [0xE9; 0x20AC; 0x1F600].
Proof.
  assert (H : forallb scalar (lit "Hi " ++ [0xE9; 0x20AC; 0x1F600]) = true)
    by reflexivity.
  split; [exact H|].
  exact (proj1 (@buffer_string_round_trip
                  (lit "Hi " ++ [0xE9; 0x20AC; 0x1F600]) [] H)).
Defined.

End StageOutputFacts.

(** ** Sessions on the duplex *)
Section SessionFacts.

Import JSString Stream LogChars Session Wellformed.
Local Open Scope Z_scope.

Lemma sink_write_open (c : chunk) (d : Duplex) :
  writableEnded d = false ->
  sink_write c d = (Accepted, d, [lit "Writing: " ++ toString c]).
Proof. intros H. unfold sink_write. now rewrite H. Qed.

Lemma answers_app (a b : list observation) : answers (a ++ b) = answers a ++ answers b.
Proof. apply flat_map_app. Qed.

Lemma console_app (a b : list observation) : console (a ++ b) = console a ++ console b.
Proof. apply flat_map_app. Qed.

Lemma answers_Answered (rs : list PollResult) : answers (map Answered rs) = rs.
Proof. induction rs as [|r rs IH]; [reflexivity|]. cbn. now f_equal. Qed.

Lemma console_Answered (rs : list PollResult) : console (map Answered rs) = [].
Proof. induction rs as [|r rs IH]; [reflexivity | exact IH]. Qed.

Lemma poll_same_readable (n : N) (d d' : Duplex) :
  same_readable d d' ->
  fst (poll n d) = fst (poll n d')
  /\ same_readable (snd (poll n d)) (snd (poll n d')).
Proof.
  intros [C R]. destruct d as [c r w], d' as [c' r' w'].
  cbn [currentCharCode readableEnded] in C, R. subst c' r'.
  unfold poll, read, bind, get, same_readable;
    cbn -[Utf8.encode fromCharCode Z.add Z.gtb].
  destruct (c >? 90); cbn -[Utf8.encode fromCharCode Z.add]; [auto|].
  destruct r; [auto|].
  destruct (Utf8.encode (fromCharCode c)); cbn; auto.
Qed.

Lemma observe_calls_halves (cs : list call) : forall d d',
  same_readable d d' ->
  answers (fst (observe_calls d cs)) = fst (polls (sizes_polled cs) d')
  /\ same_readable (snd (observe_calls d cs)) (snd (polls (sizes_polled cs) d'))
  /\ console (fst (observe_calls d cs))
     = (if writableEnded d then []
        else map (fun c => lit "Writing: " ++ toString c) (writes_until_end cs)).
Proof.
  induction cs as [|c cs IH]; intros d d' S.
  - cbn. repeat split; try apply S. now destruct (writableEnded d).
  - destruct c as [ch| |n]; cbn [observe_calls observe_call sizes_polled flat_map
                                  writes_until_end app].
    + destruct (writableEnded d) eqn:W.
      * rewrite sink_write_closed by assumption.
        destruct (IH d d' S) as (A & B & C). rewrite W in C.
        destruct (observe_calls d cs) as [os d2]; cbn [fst snd] in *.
        now rewrite answers_app, console_app, A, C.
      * rewrite sink_write_open by assumption.
        destruct (IH d d' S) as (A & B & C). rewrite W in C.
        destruct (observe_calls d cs) as [os d2]; cbn [fst snd] in *.
        rewrite answers_app, console_app, A, C. now rewrite app_nil_r.
    + assert (S' : same_readable (sink_end d) d') by exact S.
      destruct (IH (sink_end d) d' S') as (A & B & C).
      cbn [sink_end set_writableEnded writableEnded] in C.
      destruct (observe_calls (sink_end d) cs) as [os d2]; cbn [fst snd] in *.
      repeat split; try assumption; try apply B.
      now destruct (writableEnded d).
    + fold (sizes_polled cs). cbn [polls].
      destruct (poll_same_readable n S) as [P1 P2].
      pose proof (poll_writableEnded n d) as W.
      destruct (poll n d) as [rs d1]; destruct (poll n d') as [rs' d1'];
        cbn [fst snd] in *. subst rs'.
      destruct (IH d1 d1' P2) as (A & B & C). rewrite W in C.
      destruct (observe_calls d1 cs) as [os d2].
      destruct (polls (sizes_polled cs) d1') as [rs2 d2']; cbn [fst snd] in *.
      now rewrite answers_app, console_app, answers_Answered, console_Answered, A, C.
Qed.



Lemma same_readable_refl (d : Duplex) : same_readable d d.
Proof. now split. Qed.


Lemma chunks_of_app (a b : list PollResult) :
  chunks_of (a ++ b) = chunks_of a ++ chunks_of b.
Proof. apply flat_map_app. Qed.

Lemma poll_in_range (n : N) (d : Duplex) :
  in_range d ->
  in_range (snd (poll n d))
  /\ currentCharCode (snd (poll n d))
     = currentCharCode d + Z.of_nat (length (chunks_of (fst (poll n d))))
  /\ ~ In (Error IOFailure) (fst (poll n d)).
Proof.
  intros [L E]. destruct (Z.le_gt_cases (currentCharCode d) 90) as [H|H].
  - assert (R : readableEnded d = false).
    { destruct (readableEnded d); [|reflexivity]. specialize (E eq_refl). lia. }
    rewrite poll_chunk by assumption. cbn [fst snd chunks_of flat_map app length].
    unfold in_range. cbn [currentCharCode set_currentCharCode readableEnded].
    repeat split; try lia.
    + rewrite R. discriminate.
    + intros [F|[]]. discriminate.
  - rewrite poll_end by lia. cbn [fst snd chunks_of flat_map app length].
    unfold in_range. cbn [currentCharCode set_readableEnded readableEnded].
    repeat split; try lia. intros [F|[]]. discriminate.
Qed.

Lemma polls_in_range (sizes : list N) : forall d,
  in_range d ->
  in_range (snd (polls sizes d))
  /\ currentCharCode (snd (polls sizes d))
     = currentCharCode d + Z.of_nat (length (chunks_of (fst (polls sizes d))))
  /\ ~ In (Error IOFailure) (fst (polls sizes d)).
Proof.
  induction sizes as [|n sizes IH]; intros d I.
  - cbn. repeat split; try apply I; try lia.
  - cbn [polls]. destruct (poll_in_range n I) as (I1 & C1 & N1).
    destruct (poll n d) as [r d1]; cbn [fst snd] in *.
    destruct (IH d1 I1) as (I2 & C2 & N2).
    destruct (polls sizes d1) as [rs d2]; cbn [fst snd] in *.
    repeat split; try apply I2.
    + rewrite chunks_of_app, length_app, C2, C1. lia.
    + intros F. apply in_app_or in F. tauto.
Qed.

(** X8.  On the stream of the script, after any session, the character code
    is between 65 and 91, it is 65 plus the number of chunks handed out so
    far, it is 91 once the readable half has ended, and no poll has been
    answered with an error. *)
Theorem character_code_counts_the_letters (cs : list call) :
  65 <= currentCharCode (snd (observe_calls fresh cs)) <= 91
  /\ currentCharCode (snd (observe_calls fresh cs))
     = 65 + Z.of_nat (length (chunks_of (answers (fst (observe_calls fresh cs)))))
  /\ (readableEnded (snd (observe_calls fresh cs)) = true ->
      currentCharCode (snd (observe_calls fresh cs)) = 91)
  /\ ~ In (Error IOFailure) (answers (fst (observe_calls fresh cs))).
Proof.
  destruct (observe_calls_halves cs (same_readable_refl fresh)) as (A & [B1 B2] & _).
  assert (I : in_range fresh) by (split; [cbn; lia | discriminate]).
  destruct (polls_in_range (sizes_polled cs) I) as ([I1 I2] & C & N).
  rewrite A, B1, B2. cbn [fresh currentCharCode] in C.
  repeat split; try assumption; lia.
Qed.



Lemma encode_cp_surrogate (u : N) :
  (u < 65536)%N -> scalar u = false ->
  Utf8.encode_cp u = Utf8.encode3 Utf8.replacement.
Proof.
  intros B S. unfold Utf8.encode_cp, Utf8.within, scalar in *.
  repeat match goal with
         | |- context [if ?c then _ else _] => destruct c eqn:?
         end; try reflexivity; exfalso; to_prop; lia.
Qed.

(** X10.  For every character code, the chunk [read] pushes for it makes the
    listener log "Received: " followed by that character, or by U+FFFD when
    the code unit is a lone surrogate. *)
Theorem listener_logs_the_pushed_character (c : Z) :
  on_data (Utf8.encode (fromCharCode c)) = lit "Received: " ++ shown c.
Proof.
  unfold on_data, shown, fromCharCode, toString. f_equal.
  assert (B : (Z.to_N (c mod 65536) < 65536)%N).
  { pose proof (Z.mod_pos_bound c 65536 ltac:(lia)). lia. }
  set (u := Z.to_N (c mod 65536)) in *.
  destruct (scalar u) eqn:S.
  - apply decode_encode. cbn [forallb]. now rewrite S.
  - cbn [Utf8.encode flat_map]. now rewrite encode_cp_surrogate.
Qed.

End SessionFacts.
